(** * ic-ads: the ad ledger canister of [src/index.ts]

    A shallow embedding of the seven canister methods ([createAd],
    [updateAd], [deleteAd], [bidOnAd], [getAllAds], [getAdByID],
    [getAdsByOwner]) over an explicit store, followed by the properties
    of the ledger that the specification states and by further properties
    of the methods. *)

From Stdlib Require Import String Ascii List Bool NArith SpecFloat.
From stdpp Require Import base option list gmap strings fin_maps.

Import ListNotations.
Local Open Scope string_scope.
Local Open Scope list_scope.

(** ** JavaScript values used by the canister *)

Module JS.

(** [number]: an IEEE 754 double, as the datatype of its values. *)
Definition number : Type := spec_float.

(** The global [isNaN] on a [number]. *)
Definition isNaN (x : number) : bool :=
  match x with
  | S754_nan => true
  | _ => false
  end.

(** ToBoolean on a string: only the empty string is falsy. *)
Definition truthy (s : string) : bool :=
  match s with
  | EmptyString => false
  | String _ _ => true
  end.

(** [a || b] on strings. *)
Definition or (a b : string) : string := if truthy a then a else b.

(** [a === b] on strings. *)
Definition strict_eq (a b : string) : bool := String.eqb a b.

(** An ordinary object with string-valued own properties, in creation
    order, whose prototype is [Object.prototype]. *)
Definition object : Type := list (string * string).

(** The property names every ordinary object inherits from
    [Object.prototype]. *)
Definition Object_prototype : list string :=
  [ "constructor"; "hasOwnProperty"; "isPrototypeOf";
    "propertyIsEnumerable"; "toLocaleString"; "toString"; "valueOf";
    "__proto__"; "__defineGetter__"; "__defineSetter__";
    "__lookupGetter__"; "__lookupSetter__" ].

Definition has_own (key : string) (o : object) : bool :=
  existsb (strict_eq key) (map fst o).

(** [key in o]: HasProperty, which looks at the own properties and then
    follows the prototype chain. *)
Definition in_ (key : string) (o : object) : bool :=
  has_own key o || existsb (strict_eq key) Object_prototype.

(** [Object.values(o)]: the own enumerable property values. *)
Definition Object_values (o : object) : list string := map snd o.

(** [xs.join(sep)]. *)
Fixpoint join (sep : string) (xs : list string) : string :=
  match xs with
  | [] => ""
  | [x] => x
  | x :: rest => x ++ sep ++ join sep rest
  end.

(** [xs.find(p)]: the first element satisfying [p], or undefined. *)
Fixpoint find {A : Type} (p : A -> bool) (xs : list A) : option A :=
  match xs with
  | [] => None
  | x :: rest => if p x then Some x else find p rest
  end.

(** ToBoolean on the result of [find] over objects: every object is
    truthy, undefined is falsy. *)
Definition found {A : Type} (r : option A) : bool :=
  match r with
  | Some _ => true
  | None => false
  end.

End JS.

(** ** Data model *)

(** [nat64]: an unsigned 64-bit integer; the canister only stores it. *)
Definition nat64 : Type := N.

(** The object the string enum [AdStatus] compiles to. *)
Definition AdStatus : JS.object :=
  [ ("OPEN", "OPEN"); ("CLOSED", "CLOSED"); ("BOUGHT", "BOUGHT") ].

Definition AdStatus_OPEN : string := "OPEN".
Definition AdStatus_CLOSED : string := "CLOSED".
Definition AdStatus_BOUGHT : string := "BOUGHT".

Record Bid : Type := mkBid {
  bidder : string;
  amount : JS.number
}.

Record Ad : Type := mkAd {
  id : string;
  owner : string;
  itemType : string;
  itemDescription : string;
  bids : list Bid;
  status : string;
  createdAt : nat64;
  updatedAt : option nat64
}.

Module CreateAdPayload.
Record t : Type := mk {
  itemType : string;
  itemDescription : string
}.
End CreateAdPayload.

Module UpdateAdPayload.
Record t : Type := mk {
  itemType : string;
  itemDescription : string;
  status : string
}.
End UpdateAdPayload.

(** [Result<T, string>]. *)
Inductive Result (T : Type) : Type :=
| Ok (value : T)
| Err (message : string).
Arguments Ok {T} value.
Arguments Err {T} message.

(** ** The store and the host *)

(** [adStorage]: the map from ids to Ads.  [get] hands out a decoded copy
    of the stored value, so an Ad changes in the store only through
    [insert] and [remove].  The order in which [values] lists the Ads is
    the map's own, and the sizes the map is constructed with (44 bytes a
    key, 1024 a value) are the storage library's concern: here every key
    and every Ad fits. *)
Abbreviation Storage := (gmap string Ad).

(** What the host supplies to one call: the strings the successive calls
    of [uuidv4()] return, and the value of [ic.time()]. *)
Record Host : Type := mkHost {
  uuidv4 : nat -> string;
  ic_time : nat64
}.

(** ** Calls: a store threaded through code that may throw *)

Inductive Completion (A : Type) : Type :=
| Normal (a : A)
| Thrown (message : string).
Arguments Normal {A} a.
Arguments Thrown {A} message.

Definition M (A : Type) : Type := Storage -> Completion A * Storage.

Definition ret {A : Type} (a : A) : M A := fun st => (Normal a, st).

Definition throw {A : Type} (message : string) : M A :=
  fun st => (Thrown message, st).

Definition bind {A B : Type} (k : A -> M B) (m : M A) : M B :=
  fun st =>
    match m st with
    | (Normal a, st') => k a st'
    | (Thrown message, st') => (Thrown message, st')
    end.

(** Sequencing is written with the notations [x ← m; k] and [m;; k]. *)
#[global] Instance M_ret : MRet M := @ret.
#[global] Instance M_bind : MBind M := @bind.

(** [if (c) throw new Error(message)]. *)
Definition throw_if (c : bool) (message : string) : M unit :=
  if c then throw message else ret tt.

Definition adStorage_get (key : string) : M (option Ad) :=
  fun st => (Normal (st !! key), st).

Definition adStorage_insert (key : string) (ad : Ad) : M unit :=
  fun st => (Normal tt, <[key := ad]> st).

Definition adStorage_remove (key : string) : M unit :=
  fun st => (Normal tt, delete key st).

Definition adStorage_values : M (list Ad) :=
  fun st => (Normal ((map_to_list st).*2), st).

(** [try { body } catch (error) { return handler(error.message) }]: what
    the body wrote to the store before throwing stays written. *)
Definition try_catch {A : Type} (body : M A) (handler : string -> A)
  : Storage -> A * Storage :=
  fun st =>
    match body st with
    | (Normal a, st') => (a, st')
    | (Thrown message, st') => (handler message, st')
    end.

(** ** Failure messages, named after the specification's taxonomy *)

Definition msg_InvalidPayload_create : string :=
  "Invalid payload for creating ad".
Definition msg_InvalidParameters_update : string :=
  "Invalid parameters for updating ad".
Definition msg_InvalidPayload_update : string :=
  "Invalid payload for updating ad".
Definition msg_InvalidStatus : string :=
  "Invalid status! Allowed statuses are "
  ++ JS.join ", " (JS.Object_values AdStatus).
Definition msg_Unauthorized_update : string :=
  "Only the owner can edit the ad!".
Definition msg_Unauthorized_delete : string :=
  "Only the owner can delete the ad!".
Definition msg_InvalidParameters_delete : string :=
  "Invalid parameters for deleting ad".
Definition msg_InvalidParameters_bid : string :=
  "Invalid parameters for bidding on ad".
Definition msg_AdNotOpen : string := "Ad is no longer open".
Definition msg_SelfBid : string := "You can't bid on your own ad!".
Definition msg_DuplicateBid (bidder : string) : string :=
  bidder ++ " has already bid on this ad!".
Definition msg_NotFound (id : string) : string :=
  "Ad with id of " ++ id ++ " has not been found".
Definition msg_NotFound_get (id : string) : string :=
  "Ad with id of " ++ id ++ " has not been found!".
Definition msg_NoAdsForOwner (owner : string) : string :=
  "No ads found for " ++ owner.

(** ** The canister methods *)

Definition createAd (h : Host) (payload : CreateAdPayload.t)
  : Storage -> Result Ad * Storage :=
  try_catch
    (throw_if
       (negb (JS.truthy (CreateAdPayload.itemType payload))
        || negb (JS.truthy (CreateAdPayload.itemDescription payload)))
       msg_InvalidPayload_create;;
     let ad :=
       {| id := uuidv4 h 0;
          owner := uuidv4 h 1;
          bids := [];
          status := AdStatus_OPEN;
          createdAt := ic_time h;
          updatedAt := None;
          itemType := CreateAdPayload.itemType payload;
          itemDescription := CreateAdPayload.itemDescription payload |} in
     adStorage_insert (id ad) ad;;
     ret (Ok ad))
    (fun message => Err (JS.or message "Failed to create ad")).

Definition updateAd (h : Host) (id_ : string) (owner_ : string)
    (payload : UpdateAdPayload.t)
  : Storage -> Result Ad * Storage :=
  try_catch
    (throw_if (negb (JS.truthy id_) || negb (JS.truthy owner_))
       msg_InvalidParameters_update;;
     throw_if
       (negb (JS.truthy (UpdateAdPayload.itemType payload))
        || negb (JS.truthy (UpdateAdPayload.itemDescription payload)))
       msg_InvalidPayload_update;;
     throw_if
       (JS.truthy (UpdateAdPayload.status payload)
        && negb (JS.in_ (UpdateAdPayload.status payload) AdStatus))
       msg_InvalidStatus;;
     found ← adStorage_get id_;
     match found with
     | Some ad =>
         if negb (JS.strict_eq (owner ad) owner_)
         then ret (Err msg_Unauthorized_update)
         else
           let updatedAd :=
             {| id := id ad;
                owner := owner ad;
                bids := bids ad;
                createdAt := createdAt ad;
                itemType :=
                  JS.or (UpdateAdPayload.itemType payload) (itemType ad);
                itemDescription :=
                  JS.or (UpdateAdPayload.itemDescription payload)
                        (itemDescription ad);
                status := JS.or (UpdateAdPayload.status payload) (status ad);
                updatedAt := Some (ic_time h) |} in
           adStorage_insert (id ad) updatedAd;;
           ret (Ok updatedAd)
     | None => ret (Err (msg_NotFound id_))
     end)
    (fun message => Err (JS.or message "Failed to update ad")).

Definition deleteAd (id_ : string) (owner_ : string)
  : Storage -> Result Ad * Storage :=
  try_catch
    (throw_if (negb (JS.truthy id_) || negb (JS.truthy owner_))
       msg_InvalidParameters_delete;;
     found ← adStorage_get id_;
     match found with
     | Some ad =>
         if negb (JS.strict_eq (owner ad) owner_)
         then ret (Err msg_Unauthorized_delete)
         else
           adStorage_remove id_;;
           ret (Ok ad)
     | None => ret (Err (msg_NotFound id_))
     end)
    (fun message => Err (JS.or message "Failed to delete ad")).

(** [ad.bids.push(bid)] on the Ad a call holds. *)
Definition push_bid (ad : Ad) (bid : Bid) : Ad :=
  {| id := id ad;
     owner := owner ad;
     itemType := itemType ad;
     itemDescription := itemDescription ad;
     bids := bids ad ++ [bid];
     status := status ad;
     createdAt := createdAt ad;
     updatedAt := updatedAt ad |}.

Definition bidOnAd (id_ : string) (bidder_ : string) (amount_ : JS.number)
  : Storage -> Result Ad * Storage :=
  try_catch
    (throw_if
       (negb (JS.truthy id_) || negb (JS.truthy bidder_) || JS.isNaN amount_)
       msg_InvalidParameters_bid;;
     found ← adStorage_get id_;
     match found with
     | Some ad =>
         if negb (JS.strict_eq (status ad) AdStatus_OPEN)
         then ret (Err msg_AdNotOpen)
         else if JS.strict_eq (owner ad) bidder_
         then ret (Err msg_SelfBid)
         else if JS.found
                   (JS.find (fun bid => JS.strict_eq (bidder bid) bidder_)
                            (bids ad))
         then ret (Err (msg_DuplicateBid bidder_))
         else
           let ad := push_bid ad {| bidder := bidder_; amount := amount_ |} in
           adStorage_insert (id ad) ad;;
           ret (Ok ad)
     | None => ret (Err (msg_NotFound id_))
     end)
    (fun message => Err (JS.or message "Failed to bid on ad")).

Definition getAllAds : Storage -> Result (list Ad) * Storage :=
  try_catch
    (ads ← adStorage_values;
     ret (Ok ads))
    (fun message => Err (JS.or message "Failed to retrieve ads")).

Definition getAdByID (id_ : string) : Storage -> Result Ad * Storage :=
  try_catch
    (found ← adStorage_get id_;
     match found with
     | Some ad => ret (Ok ad)
     | None => ret (Err (msg_NotFound_get id_))
     end)
    (fun message =>
       Err (JS.or message ("Failed to retrieve ad with id " ++ id_))).

Definition getAdsByOwner (owner_ : string)
  : Storage -> Result (list Ad) * Storage :=
  try_catch
    (all ← adStorage_values;
     let ads := List.filter (fun ad => JS.strict_eq (owner ad) owner_) all in
     ret (if (0 <? length ads)%nat
          then Ok ads
          else Err (msg_NoAdsForOwner owner_)))
    (fun message =>
       Err (JS.or message ("Failed to retrieve ads for owner " ++ owner_))).

(** ** The ledger as a transition system *)

(** What the identifier generator promises for one call against a store:
    identifiers are non-empty strings, and the one used as the Ad's key is
    not in use. *)
Definition uuid_contract (h : Host) (st : Storage) : Prop :=
  uuidv4 h 0 ≠ "" ∧ uuidv4 h 1 ≠ "" ∧ st !! uuidv4 h 0 = None.

(** One call of one of the seven methods. *)
Inductive step : Storage -> Storage -> Prop :=
| step_createAd h payload st :
    uuid_contract h st -> step st (createAd h payload st).2
| step_updateAd h id_ owner_ payload st :
    step st (updateAd h id_ owner_ payload st).2
| step_deleteAd id_ owner_ st :
    step st (deleteAd id_ owner_ st).2
| step_bidOnAd id_ bidder_ amount_ st :
    step st (bidOnAd id_ bidder_ amount_ st).2
| step_getAllAds st :
    step st (getAllAds st).2
| step_getAdByID id_ st :
    step st (getAdByID id_ st).2
| step_getAdsByOwner owner_ st :
    step st (getAdsByOwner owner_ st).2.

(** The stores the canister can be in, starting from the empty one. *)
Inductive reachable : Storage -> Prop :=
| reachable_empty : reachable ∅
| reachable_step st st' : reachable st -> step st st' -> reachable st'.

(** The bidders of an Ad, in bid order. *)
Definition bidders (ad : Ad) : list string := bidder <$> bids ad.

(** Every Ad sits under its own id, and ids and owners are non-empty. *)
Definition well_keyed (st : Storage) : Prop :=
  ∀ k ad, st !! k = Some ad → id ad = k ∧ k ≠ "" ∧ owner ad ≠ "".

(** The bidding rules as a property of one Ad. *)
Definition bids_ok (ad : Ad) : Prop :=
  NoDup (bidders ad) ∧ owner ad ∉ bidders ad.

(** Between two versions of an Ad: the bids are kept as they are, or one
    bid was put at the end while the Ad was open. *)
Definition bids_grow (ad ad' : Ad) : Prop :=
  bids ad' = bids ad
  ∨ (status ad = AdStatus_OPEN ∧ ∃ bid, bids ad' = bids ad ++ [bid]).

(** What one call can have done to the store. *)
Inductive effect (st : Storage) : Storage -> Prop :=
| effect_none : effect st st
| effect_create ad :
    st !! id ad = None -> id ad ≠ "" -> owner ad ≠ "" -> bids ad = [] ->
    effect st (<[id ad := ad]> st)
| effect_update k ad ad' :
    st !! k = Some ad ->
    id ad' = id ad -> owner ad' = owner ad -> bids ad' = bids ad ->
    effect st (<[id ad := ad']> st)
| effect_delete k ad :
    st !! k = Some ad -> effect st (delete k st)
| effect_bid k ad bid :
    st !! k = Some ad -> status ad = AdStatus_OPEN ->
    owner ad ≠ bidder bid -> bidder bid ∉ bidders ad ->
    effect st (<[id ad := push_bid ad bid]> st).

(** The invariant of the ledger. *)
Definition ledger_inv (st : Storage) : Prop :=
  well_keyed st ∧ ∀ k ad, st !! k = Some ad → bids_ok ad.

(** ** Sample calls

    The walk-through of the specification: an Ad for a red bike, and a
    first bid of 100 by buyer1. *)

Definition host_A : Host :=
  {| uuidv4 := fun n => match n with 0 => "id-A" | _ => "owner-O" end;
     ic_time := 1000%N |}.

Definition host_later : Host :=
  {| uuidv4 := fun n => match n with 0 => "id-B" | _ => "owner-P" end;
     ic_time := 2000%N |}.

Definition red_bike : CreateAdPayload.t :=
  CreateAdPayload.mk "bike" "red bike".

Definition amount_100 : JS.number :=
  S754_finite false 7036874417766400 (-46).

Definition amount_150 : JS.number :=
  S754_finite false 5277655813324800 (-45).

Definition ad_A : Ad :=
  {| id := "id-A"; owner := "owner-O";
     itemType := "bike"; itemDescription := "red bike";
     bids := []; status := "OPEN";
     createdAt := 1000%N; updatedAt := None |}.

Definition store_A : Storage := (createAd host_A red_bike ∅).2.

Definition store_A_bid : Storage :=
  (bidOnAd "id-A" "buyer1" amount_100 store_A).2.

Definition ad_A_bid : Ad :=
  push_bid ad_A {| bidder := "buyer1"; amount := amount_100 |}.

Definition close_bike : UpdateAdPayload.t :=
  UpdateAdPayload.mk "bike" "red bike" "CLOSED".

Definition ad_A_closed : Ad :=
  {| id := "id-A"; owner := "owner-O";
     itemType := "bike"; itemDescription := "red bike";
     bids := []; status := "CLOSED";
     createdAt := 1000%N; updatedAt := Some 2000%N |}.

(** An update whose status is the name of a method every object has. *)
Definition odd_bike : UpdateAdPayload.t :=
  UpdateAdPayload.mk "bike" "red bike" "toString".

Definition ad_A_odd : Ad :=
  {| id := "id-A"; owner := "owner-O";
     itemType := "bike"; itemDescription := "red bike";
     bids := []; status := "toString";
     createdAt := 1000%N; updatedAt := Some 2000%N |}.

(** ** The Ads the methods build *)

(** The Ad [createAd] builds once the payload has passed its check. *)
Definition newAd (h : Host) (payload : CreateAdPayload.t) : Ad :=
  {| id := uuidv4 h 0;
     owner := uuidv4 h 1;
     bids := [];
     status := AdStatus_OPEN;
     createdAt := ic_time h;
     updatedAt := None;
     itemType := CreateAdPayload.itemType payload;
     itemDescription := CreateAdPayload.itemDescription payload |}.

(** The Ad [updateAd] builds from the stored one and the payload. *)
Definition updatedAd (h : Host) (payload : UpdateAdPayload.t) (ad : Ad) : Ad :=
  {| id := id ad;
     owner := owner ad;
     bids := bids ad;
     createdAt := createdAt ad;
     itemType := JS.or (UpdateAdPayload.itemType payload) (itemType ad);
     itemDescription :=
       JS.or (UpdateAdPayload.itemDescription payload) (itemDescription ad);
     status := JS.or (UpdateAdPayload.status payload) (status ad);
     updatedAt := Some (ic_time h) |}.

(** What the checks of the methods let into an Ad: texts that are not
    empty, a status the status check lets through, and bids by named
    bidders with amounts that are numbers. *)
Definition well_formed (ad : Ad) : Prop :=
  itemType ad ≠ ""
  ∧ itemDescription ad ≠ ""
  ∧ status ad ≠ ""
  ∧ JS.in_ (status ad) AdStatus = true
  ∧ ∀ bid, bid ∈ bids ad → bidder bid ≠ "" ∧ JS.isNaN (amount bid) = false.

(** More sample data: the bike Ad closed, and a payload that opens it
    again. *)
Definition store_A_closed : Storage :=
  (updateAd host_later "id-A" "owner-O" close_bike store_A).2.

Definition reopen_bike : UpdateAdPayload.t :=
  UpdateAdPayload.mk "bike" "red bike" "OPEN".

Definition no_description : CreateAdPayload.t :=
  CreateAdPayload.mk "bike" "".

(** ** Basic facts about the JavaScript operators *)

Lemma truthy_true (s : string) : JS.truthy s = true ↔ s ≠ "".
Proof. destruct s; simpl; split; intros; congruence. Qed.

Lemma truthy_false (s : string) : JS.truthy s = false ↔ s = "".
Proof. destruct s; simpl; split; intros; congruence. Qed.

Lemma or_truthy (a b : string) : a ≠ "" → JS.or a b = a.
Proof. intros Ha. unfold JS.or. apply truthy_true in Ha. by rewrite Ha. Qed.

Lemma or_empty (b : string) : JS.or "" b = b.
Proof. reflexivity. Qed.

Lemma strict_eq_true (a b : string) : JS.strict_eq a b = true ↔ a = b.
Proof. apply String.eqb_eq. Qed.

Lemma strict_eq_false (a b : string) : JS.strict_eq a b = false ↔ a ≠ b.
Proof. apply String.eqb_neq. Qed.

Lemma strict_eq_refl (a : string) : JS.strict_eq a a = true.
Proof. by apply strict_eq_true. Qed.

Lemma existsb_strict_eq (key : string) (xs : list string) :
  existsb (JS.strict_eq key) xs = true ↔ key ∈ xs.
Proof.
  rewrite existsb_exists, list_elem_of_In. split.
  - intros (x & Hin & Heq). apply strict_eq_true in Heq. by subst.
  - intros Hin. exists key. split; [done | apply strict_eq_refl].
Qed.

(** The keys of the enum object are exactly its three values. *)
Lemma has_own_AdStatus (key : string) :
  JS.has_own key AdStatus = true ↔ key ∈ JS.Object_values AdStatus.
Proof. unfold JS.has_own. by rewrite existsb_strict_eq. Qed.

(** [in] holds of the three enum keys and of the inherited names. *)
Lemma in_AdStatus (key : string) :
  JS.in_ key AdStatus = true
  ↔ key ∈ JS.Object_values AdStatus ∨ key ∈ JS.Object_prototype.
Proof.
  unfold JS.in_. rewrite orb_true_iff, has_own_AdStatus, existsb_strict_eq.
  done.
Qed.

Lemma find_bidder (b : string) (bs : list Bid) :
  JS.found (JS.find (fun bid => JS.strict_eq (bidder bid) b) bs) = true
  ↔ b ∈ bidder <$> bs.
Proof.
  induction bs as [|x bs IH]; simpl.
  - split; [discriminate | by intros ?%elem_of_nil].
  - destruct (JS.strict_eq (bidder x) b) eqn:E; simpl.
    + apply strict_eq_true in E. subst. split; [intros _; left | done].
    + apply strict_eq_false in E. rewrite IH, elem_of_cons.
      split; [by right | by intros [? | ?]].
Qed.

Lemma find_bidder_none (b : string) (bs : list Bid) :
  JS.found (JS.find (fun bid => JS.strict_eq (bidder bid) b) bs) = false
  ↔ b ∉ bidder <$> bs.
Proof.
  rewrite <- find_bidder. destruct (JS.found _); split; congruence.
Qed.

(** ** The methods, case by case *)

(** Unfolds a method down to the tests it makes. *)
Ltac run_call :=
  unfold createAd, updateAd, deleteAd, bidOnAd, getAllAds, getAdByID,
    getAdsByOwner, try_catch, mbind, M_bind, bind, throw_if, mret, M_ret,
    ret, throw, adStorage_get, adStorage_insert, adStorage_remove,
    adStorage_values;
  simpl.

(** Rewrites the emptiness and equality tests a hypothesis decides. *)
Ltac decide_tests :=
  repeat match goal with
  | H : ?s ≠ "" |- context [JS.truthy ?s] =>
      rewrite (proj2 (truthy_true s) H)
  | H : ?a ≠ ?b |- context [JS.strict_eq ?a ?b] =>
      rewrite (proj2 (strict_eq_false a b) H)
  | |- context [JS.strict_eq ?a ?a] => rewrite (strict_eq_refl a)
  end; simpl.

Lemma createAd_invalid h payload st :
  CreateAdPayload.itemType payload = ""
  ∨ CreateAdPayload.itemDescription payload = "" →
  createAd h payload st = (Err msg_InvalidPayload_create, st).
Proof.
  intros H. run_call.
  destruct payload as [t d]; simpl in *.
  destruct H as [-> | ->]; [done |]. by destruct t.
Qed.

Lemma createAd_valid h payload st :
  CreateAdPayload.itemType payload ≠ "" →
  CreateAdPayload.itemDescription payload ≠ "" →
  createAd h payload st =
    let ad :=
      {| id := uuidv4 h 0; owner := uuidv4 h 1;
         itemType := CreateAdPayload.itemType payload;
         itemDescription := CreateAdPayload.itemDescription payload;
         bids := []; status := AdStatus_OPEN;
         createdAt := ic_time h; updatedAt := None |} in
    (Ok ad, <[uuidv4 h 0 := ad]> st).
Proof. intros Ht Hd. run_call. by decide_tests. Qed.

(** The store lookup of [updateAd] is reached exactly when the three
    validations pass, and then decides the call. *)
Lemma updateAd_validated h id_ owner_ payload st :
  id_ ≠ "" → owner_ ≠ "" →
  UpdateAdPayload.itemType payload ≠ "" →
  UpdateAdPayload.itemDescription payload ≠ "" →
  (UpdateAdPayload.status payload = ""
   ∨ JS.in_ (UpdateAdPayload.status payload) AdStatus = true) →
  updateAd h id_ owner_ payload st =
    match st !! id_ with
    | Some ad =>
        if negb (JS.strict_eq (owner ad) owner_)
        then (Err msg_Unauthorized_update, st)
        else
          let updatedAd :=
            {| id := id ad; owner := owner ad;
               itemType := UpdateAdPayload.itemType payload;
               itemDescription := UpdateAdPayload.itemDescription payload;
               bids := bids ad;
               status := JS.or (UpdateAdPayload.status payload) (status ad);
               createdAt := createdAt ad;
               updatedAt := Some (ic_time h) |} in
          (Ok updatedAd, <[id ad := updatedAd]> st)
    | None => (Err (msg_NotFound id_), st)
    end.
Proof.
  intros Hi Ho Ht Hd Hs. run_call. decide_tests.
  assert (JS.truthy (UpdateAdPayload.status payload)
          && negb (JS.in_ (UpdateAdPayload.status payload) AdStatus) = false)
    as ->.
  { destruct Hs as [-> | ->]; [done | by rewrite andb_false_r]. }
  destruct (st !! id_) as [ad|]; [|done].
  destruct (negb (JS.strict_eq (owner ad) owner_)); [done |].
  by rewrite (or_truthy _ _ Ht), (or_truthy _ _ Hd).
Qed.

(** The three validations of [updateAd], in the order they are made; none
    of them looks at the store. *)
Lemma updateAd_rejected h id_ owner_ payload st :
  (id_ = "" ∨ owner_ = "" →
   updateAd h id_ owner_ payload st = (Err msg_InvalidParameters_update, st))
  ∧ (id_ ≠ "" → owner_ ≠ "" →
     UpdateAdPayload.itemType payload = ""
     ∨ UpdateAdPayload.itemDescription payload = "" →
     updateAd h id_ owner_ payload st = (Err msg_InvalidPayload_update, st))
  ∧ (id_ ≠ "" → owner_ ≠ "" →
     UpdateAdPayload.itemType payload ≠ "" →
     UpdateAdPayload.itemDescription payload ≠ "" →
     UpdateAdPayload.status payload ≠ "" →
     JS.in_ (UpdateAdPayload.status payload) AdStatus = false →
     updateAd h id_ owner_ payload st = (Err msg_InvalidStatus, st)).
Proof.
  split; [|split].
  - intros [-> | ->]; run_call; [done |]. by destruct id_.
  - intros Hi Ho H. destruct payload as [t d s]; simpl in *.
    run_call. decide_tests.
    destruct H as [-> | ->]; [done |]. by destruct t.
  - intros Hi Ho Ht Hd Hs Hin. run_call. decide_tests. by rewrite Hin.
Qed.

(** Splits a call on the tests it makes, one after the other. *)
Ltac split_call :=
  repeat (simpl;
    match goal with
    | |- context [if ?b then _ else _] => destruct b eqn:?
    | |- context [match ?o with Some _ => _ | None => _ end] =>
        destruct o eqn:?
    end);
  simpl.

(** Turns the recorded outcomes of tests into propositions. *)
Ltac bool_facts :=
  repeat match goal with
  | H : _ || _ = false |- _ => apply orb_false_iff in H; destruct H
  | H : _ && _ = false |- _ => apply andb_false_iff in H
  | H : negb _ = false |- _ => apply negb_false_iff in H
  | H : negb _ = true |- _ => apply negb_true_iff in H
  | H : JS.truthy _ = true |- _ => apply truthy_true in H
  | H : JS.truthy _ = false |- _ => apply truthy_false in H
  | H : JS.strict_eq _ _ = true |- _ => apply strict_eq_true in H
  | H : JS.strict_eq _ _ = false |- _ => apply strict_eq_false in H
  | H : JS.found (JS.find _ _) = false |- _ => apply find_bidder_none in H
  | H : JS.found (JS.find _ _) = true |- _ => apply find_bidder in H
  end.

Lemma deleteAd_validated id_ owner_ st :
  id_ ≠ "" → owner_ ≠ "" →
  deleteAd id_ owner_ st =
    match st !! id_ with
    | Some ad =>
        if negb (JS.strict_eq (owner ad) owner_)
        then (Err msg_Unauthorized_delete, st)
        else (Ok ad, delete id_ st)
    | None => (Err (msg_NotFound id_), st)
    end.
Proof. intros Hi Ho. run_call. decide_tests. by split_call. Qed.

Lemma bidOnAd_validated id_ bidder_ amount_ st :
  id_ ≠ "" → bidder_ ≠ "" → JS.isNaN amount_ = false →
  bidOnAd id_ bidder_ amount_ st =
    match st !! id_ with
    | Some ad =>
        if negb (JS.strict_eq (status ad) AdStatus_OPEN)
        then (Err msg_AdNotOpen, st)
        else if JS.strict_eq (owner ad) bidder_
        then (Err msg_SelfBid, st)
        else if JS.found
                  (JS.find (fun bid => JS.strict_eq (bidder bid) bidder_)
                           (bids ad))
        then (Err (msg_DuplicateBid bidder_), st)
        else
          let ad' := push_bid ad {| bidder := bidder_; amount := amount_ |} in
          (Ok ad', <[id ad := ad']> st)
    | None => (Err (msg_NotFound id_), st)
    end.
Proof. intros Hi Hb Ha. run_call. decide_tests. rewrite Ha. by split_call. Qed.

Lemma getAdByID_lookup id_ st :
  getAdByID id_ st =
    match st !! id_ with
    | Some ad => (Ok ad, st)
    | None => (Err (msg_NotFound_get id_), st)
    end.
Proof. run_call. by split_call. Qed.

(** ** What each call does to the store *)

Lemma createAd_effect h payload st :
  uuid_contract h st → effect st (createAd h payload st).2.
Proof.
  intros (Hi & Ho & Hfresh). run_call. split_call; [constructor |].
  by apply (effect_create st (mkAd _ _ _ _ _ _ _ _)).
Qed.

Lemma updateAd_effect h id_ owner_ payload st :
  effect st (updateAd h id_ owner_ payload st).2.
Proof.
  run_call. split_call; try constructor.
  by eapply (effect_update st id_ _ (mkAd _ _ _ _ _ _ _ _)).
Qed.

Lemma deleteAd_effect id_ owner_ st : effect st (deleteAd id_ owner_ st).2.
Proof.
  run_call. split_call; try constructor. by eapply effect_delete.
Qed.

Lemma bidOnAd_effect id_ bidder_ amount_ st :
  effect st (bidOnAd id_ bidder_ amount_ st).2.
Proof.
  run_call. split_call; try constructor. bool_facts.
  by eapply (effect_bid st id_ _ (mkBid _ _)).
Qed.

Lemma queries_effect st :
  (getAllAds st).2 = st
  ∧ (∀ id_, (getAdByID id_ st).2 = st)
  ∧ (∀ owner_, (getAdsByOwner owner_ st).2 = st).
Proof.
  split; [done | split].
  - intros id_. rewrite getAdByID_lookup. by destruct (st !! id_).
  - done.
Qed.

Lemma step_effect st st' : step st st' → effect st st'.
Proof.
  destruct 1.
  - by apply createAd_effect.
  - apply updateAd_effect.
  - apply deleteAd_effect.
  - apply bidOnAd_effect.
  - constructor.
  - rewrite (proj1 (proj2 (queries_effect st))). constructor.
  - constructor.
Qed.

(** ** The invariant of the ledger *)

Lemma bidders_push_bid ad bid :
  bidders (push_bid ad bid) = bidders ad ++ [bidder bid].
Proof. unfold bidders. simpl. by rewrite fmap_app. Qed.

Lemma bids_ok_push_bid ad bid :
  bids_ok ad → owner ad ≠ bidder bid → bidder bid ∉ bidders ad →
  bids_ok (push_bid ad bid).
Proof.
  intros [Hnd Hown] Hne Hnew. unfold bids_ok.
  rewrite bidders_push_bid. simpl. split.
  - apply NoDup_app. split; [done | split].
    + intros x Hx ->%list_elem_of_singleton. done.
    + apply NoDup_singleton.
  - rewrite elem_of_app, list_elem_of_singleton. by intros [? | ?].
Qed.

Lemma effect_inv st st' : ledger_inv st → effect st st' → ledger_inv st'.
Proof.
  intros [Hkey Hbids] Heff.
  destruct Heff as [| ad Hfresh Hid Hown Hnil
                    | k ad ad' Hk Hid Hown Hb
                    | k ad Hk
                    | k ad bid Hk Hopen Hne Hnew].
  - done.
  - split; intros k' a; rewrite lookup_insert; case_decide; intros Ha;
      simplify_eq; eauto.
    unfold bids_ok, bidders. rewrite Hnil. simpl.
    split; [apply NoDup_nil_2 | apply not_elem_of_nil].
  - destruct (Hkey _ _ Hk) as (Hidk & Hne & Hone).
    split; intros k' a; rewrite lookup_insert; case_decide; intros Ha;
      simplify_eq; eauto.
    + rewrite Hid, Hown. done.
    + destruct (Hbids _ _ Hk) as [Hnd Hnot].
      unfold bids_ok, bidders in *. by rewrite Hb, Hown.
  - split; intros k' a Ha; apply lookup_delete_Some in Ha as [_ Ha]; eauto.
  - destruct (Hkey _ _ Hk) as (Hidk & Hnek & Hone).
    split; intros k' a; rewrite lookup_insert; case_decide; intros Ha;
      simplify_eq; eauto.
    apply bids_ok_push_bid; eauto.
Qed.

Lemma ledger_inv_empty : ledger_inv ∅.
Proof. split; intros k ad Hk; by rewrite lookup_empty in Hk. Qed.

Lemma reachable_inv st : reachable st → ledger_inv st.
Proof.
  induction 1 as [| st st' _ IH Hstep].
  - apply ledger_inv_empty.
  - eapply effect_inv; [exact IH | by apply step_effect].
Qed.

Lemma reachable_well_keyed st : reachable st → well_keyed st.
Proof. intros H. apply (reachable_inv st H). Qed.

Lemma effect_bids_grow st st' k ad ad' :
  well_keyed st → effect st st' →
  st !! k = Some ad → st' !! k = Some ad' → bids_grow ad ad'.
Proof.
  intros Hkey Heff Hk Hk'.
  destruct Heff as [| a Hfresh Hid Hown Hnil
                    | k0 a a' Hk0 Hid Hown Hb
                    | k0 a Hk0
                    | k0 a bid Hk0 Hopen Hne Hnew].
  - left. congruence.
  - rewrite lookup_insert in Hk'. case_decide; simplify_eq.
    left. congruence.
  - destruct (Hkey _ _ Hk0) as (Hidk & _).
    rewrite lookup_insert in Hk'. case_decide; simplify_eq.
    + by left.
    + left. congruence.
  - apply lookup_delete_Some in Hk' as [_ Hk']. left. congruence.
  - destruct (Hkey _ _ Hk0) as (Hidk & _).
    rewrite lookup_insert in Hk'. case_decide; simplify_eq.
    + right. split; [done | by exists bid].
    + left. congruence.
Qed.

(** ** The walk-through of the specification, run on the model *)

Example walk_through :
  let '(r1, st1) := createAd host_A red_bike ∅ in
  let '(r2, st2) := bidOnAd "id-A" "buyer1" amount_100 st1 in
  let '(r3, st3) := bidOnAd "id-A" "buyer1" amount_150 st2 in
  let '(r4, st4) := updateAd host_later "id-A" "owner-O" close_bike st3 in
  let '(r5, st5) := bidOnAd "id-A" "buyer2" amount_150 st4 in
  r1 = Ok ad_A
  ∧ r2 = Ok ad_A_bid
  ∧ r3 = Err "buyer1 has already bid on this ad!"
  ∧ (∃ ad, r4 = Ok ad ∧ status ad = "CLOSED" ∧ bids ad = bids ad_A_bid)
  ∧ r5 = Err "Ad is no longer open"
  ∧ st5 = st4.
Proof.
  vm_compute. repeat split. eexists. repeat split.
Qed.

(** * The properties of the specification *)

(** C9. In every store reachable from the empty one by calls of the seven
    methods, every Ad has at most one bid per bidder and its owner is not
    among its bidders; and across any further call an Ad that stays in the
    store keeps its bids as they are, in order, or gets exactly one more
    at the end, the latter only if its status was OPEN before the call. *)
Theorem reachable_bidding_rules (st : Storage) :
  reachable st →
  (∀ k ad, st !! k = Some ad →
     NoDup (bidders ad) ∧ owner ad ∉ bidders ad)
  ∧ (∀ st' k ad ad',
       step st st' → st !! k = Some ad → st' !! k = Some ad' →
       bids ad' = bids ad
       ∨ (status ad = AdStatus_OPEN ∧ ∃ bid, bids ad' = bids ad ++ [bid])).
Proof.
  intros Hreach. destruct (reachable_inv st Hreach) as [Hkey Hbids]. split.
  - intros k ad Hk. apply (Hbids k ad Hk).
  - intros st' k ad ad' Hstep Hk Hk'.
    apply (effect_bids_grow st st' k ad ad'); auto using step_effect.
Qed.

(** The sample stores are reachable. *)
Lemma reachable_store_A : reachable store_A.
Proof.
  apply (reachable_step ∅); [apply reachable_empty |].
  apply step_createAd. unfold uuid_contract. simpl.
  split; [discriminate | split; [discriminate | apply lookup_empty]].
Qed.

Lemma reachable_store_A_bid : reachable store_A_bid.
Proof.
  apply (reachable_step store_A); [apply reachable_store_A |].
  apply step_bidOnAd.
Qed.

Lemma reachable_bidding_rules_witness :
  reachable store_A_bid
  ∧ (∀ k ad, store_A_bid !! k = Some ad →
       NoDup (bidders ad) ∧ owner ad ∉ bidders ad)
  ∧ (∀ st' k ad ad',
       step store_A_bid st' →
       store_A_bid !! k = Some ad → st' !! k = Some ad' →
       bids ad' = bids ad
       ∨ (status ad = AdStatus_OPEN ∧ ∃ bid, bids ad' = bids ad ++ [bid])).
Proof.
  split; [apply reachable_store_A_bid |].
  apply (reachable_bidding_rules store_A_bid), reachable_store_A_bid.
Defined.

(** C2. A call of createAd with non-empty itemType and itemDescription
    succeeds; the Ad it returns has the first generated identifier as id
    and the second as owner, status OPEN, no bids, the current time as
    createdAt and no updatedAt, and carries the payload's two fields; the
    store after the call is the store before with exactly that Ad put
    under its id, so that getAdByID on that id returns it. *)
Theorem createAd_creates (h : Host) (payload : CreateAdPayload.t)
    (st : Storage) :
  CreateAdPayload.itemType payload ≠ "" →
  CreateAdPayload.itemDescription payload ≠ "" →
  ∃ ad,
    createAd h payload st = (Ok ad, <[id ad := ad]> st)
    ∧ id ad = uuidv4 h 0
    ∧ owner ad = uuidv4 h 1
    ∧ status ad = AdStatus_OPEN
    ∧ bids ad = []
    ∧ createdAt ad = ic_time h
    ∧ updatedAt ad = None
    ∧ itemType ad = CreateAdPayload.itemType payload
    ∧ itemDescription ad = CreateAdPayload.itemDescription payload
    ∧ getAdByID (id ad) (<[id ad := ad]> st)
      = (Ok ad, <[id ad := ad]> st).
Proof.
  intros Ht Hd. rewrite (createAd_valid h payload st Ht Hd). simpl.
  exists (mkAd (uuidv4 h 0) (uuidv4 h 1)
            (CreateAdPayload.itemType payload)
            (CreateAdPayload.itemDescription payload)
            [] AdStatus_OPEN (ic_time h) None).
  simpl. repeat split.
  by rewrite getAdByID_lookup, lookup_insert_eq.
Qed.

Lemma createAd_creates_witness :
  ∃ ad,
    createAd host_A red_bike ∅ = (Ok ad, <[id ad := ad]> ∅)
    ∧ id ad = "id-A"
    ∧ owner ad = "owner-O"
    ∧ status ad = AdStatus_OPEN
    ∧ bids ad = []
    ∧ createdAt ad = 1000%N
    ∧ updatedAt ad = None
    ∧ itemType ad = "bike"
    ∧ itemDescription ad = "red bike"
    ∧ getAdByID (id ad) (<[id ad := ad]> ∅) = (Ok ad, <[id ad := ad]> ∅).
Proof.
  apply (createAd_creates host_A red_bike ∅); simpl; discriminate.
Defined.

(** C3. When updateAd succeeds, the id it was called with holds an Ad
    whose owner is the supplied one, and the Ad returned has the payload's
    itemType and itemDescription, the payload's status unless that is
    empty, in which case the status is the stored one, the current time
    as updatedAt, and the stored Ad's id, owner, createdAt and bids; the
    store after the call is the store before with the returned Ad put
    under its id. *)
Theorem updateAd_success (h : Host) (id_ owner_ : string)
    (payload : UpdateAdPayload.t) (st st' : Storage) (ad' : Ad) :
  updateAd h id_ owner_ payload st = (Ok ad', st') →
  ∃ ad,
    st !! id_ = Some ad
    ∧ owner ad = owner_
    ∧ itemType ad' = UpdateAdPayload.itemType payload
    ∧ itemDescription ad' = UpdateAdPayload.itemDescription payload
    ∧ (UpdateAdPayload.status payload ≠ "" →
       status ad' = UpdateAdPayload.status payload)
    ∧ (UpdateAdPayload.status payload = "" → status ad' = status ad)
    ∧ updatedAt ad' = Some (ic_time h)
    ∧ id ad' = id ad
    ∧ owner ad' = owner ad
    ∧ createdAt ad' = createdAt ad
    ∧ bids ad' = bids ad
    ∧ st' = <[id ad := ad']> st
    ∧ st' !! id ad' = Some ad'.
Proof.
  revert st' ad'. run_call. split_call; intros st' ad' [= <- <-].
  bool_facts. exists a. simpl.
  rewrite !or_truthy by done.
  repeat split; try done.
  - intros Hs. by rewrite or_truthy.
  - intros ->. done.
  - by rewrite lookup_insert_eq.
Qed.

Lemma updateAd_success_witness :
  ∃ ad,
    store_A !! "id-A" = Some ad
    ∧ owner ad = "owner-O"
    ∧ itemType ad_A_closed = UpdateAdPayload.itemType close_bike
    ∧ itemDescription ad_A_closed = UpdateAdPayload.itemDescription close_bike
    ∧ (UpdateAdPayload.status close_bike ≠ "" →
       status ad_A_closed = UpdateAdPayload.status close_bike)
    ∧ (UpdateAdPayload.status close_bike = "" →
       status ad_A_closed = status ad)
    ∧ updatedAt ad_A_closed = Some (ic_time host_later)
    ∧ id ad_A_closed = id ad
    ∧ owner ad_A_closed = owner ad
    ∧ createdAt ad_A_closed = createdAt ad
    ∧ bids ad_A_closed = bids ad
    ∧ <["id-A" := ad_A_closed]> store_A = <[id ad := ad_A_closed]> store_A
    ∧ <["id-A" := ad_A_closed]> store_A !! id ad_A_closed = Some ad_A_closed.
Proof.
  apply (updateAd_success host_later "id-A" "owner-O" close_bike store_A).
  vm_compute. reflexivity.
Defined.

(** C1. The status check of updateAd asks whether the status is a
    property of the enum object, and a property may be inherited: with
    the non-empty status toString, which is none of OPEN, CLOSED and
    BOUGHT, a call by the owner on a stored Ad is not rejected; it
    succeeds and stores toString as the Ad's status. *)
Theorem updateAd_inherited_status_accepted :
  UpdateAdPayload.status odd_bike ≠ ""
  ∧ (UpdateAdPayload.status odd_bike ∉ JS.Object_values AdStatus)
  ∧ store_A !! "id-A" = Some ad_A
  ∧ updateAd host_later "id-A" "owner-O" odd_bike store_A
    = (Ok ad_A_odd, <["id-A" := ad_A_odd]> store_A)
  ∧ <["id-A" := ad_A_odd]> store_A ≠ store_A.
Proof.
  split; [discriminate |]. split.
  { simpl. rewrite !elem_of_cons, elem_of_nil.
    intros [? | [? | [? | []]]]; discriminate. }
  split; [reflexivity |]. split; [reflexivity |].
  intros Heq.
  assert (<["id-A" := ad_A_odd]> store_A !! "id-A" = store_A !! "id-A")
    as Hlook by (by rewrite Heq).
  vm_compute in Hlook. discriminate.
Qed.

(** C10. With no Ad under the id, a call of updateAd whose status is the
    non-empty string toString, none of OPEN, CLOSED and BOUGHT, is
    answered with the not-found failure and not with the invalid-status
    one. *)
Theorem updateAd_inherited_status_not_found :
  UpdateAdPayload.status odd_bike ≠ ""
  ∧ (UpdateAdPayload.status odd_bike ∉ JS.Object_values AdStatus)
  ∧ store_A !! "id-B" = None
  ∧ updateAd host_later "id-B" "owner-O" odd_bike store_A
    = (Err (msg_NotFound "id-B"), store_A)
  ∧ msg_NotFound "id-B" ≠ msg_InvalidStatus.
Proof.
  split; [discriminate |]. split.
  { simpl. rewrite !elem_of_cons, elem_of_nil.
    intros [? | [? | [? | []]]]; discriminate. }
  split; [reflexivity |]. split; [reflexivity | discriminate].
Qed.

(** C5. For an Ad stored under a non-empty id, a call of updateAd with a
    non-empty owner different from the Ad's, non-empty itemType and
    itemDescription, and a status that is empty or one of OPEN, CLOSED and
    BOUGHT fails with the owner-only failure and leaves the whole store,
    and so every field of the Ad, as it was. *)
Theorem updateAd_non_owner (h : Host) (id_ owner_ : string)
    (payload : UpdateAdPayload.t) (st : Storage) (ad : Ad) :
  st !! id_ = Some ad →
  owner_ ≠ owner ad →
  id_ ≠ "" → owner_ ≠ "" →
  UpdateAdPayload.itemType payload ≠ "" →
  UpdateAdPayload.itemDescription payload ≠ "" →
  (UpdateAdPayload.status payload = ""
   ∨ UpdateAdPayload.status payload ∈ JS.Object_values AdStatus) →
  updateAd h id_ owner_ payload st = (Err msg_Unauthorized_update, st)
  ∧ (updateAd h id_ owner_ payload st).2 !! id_ = Some ad.
Proof.
  intros Hk Hne Hi Ho Ht Hd Hs.
  assert (updateAd h id_ owner_ payload st = (Err msg_Unauthorized_update, st))
    as ->; [| done].
  rewrite updateAd_validated; try done.
  - rewrite Hk. assert (owner ad ≠ owner_) as Hne' by congruence.
    by decide_tests.
  - destruct Hs as [? | Hs]; [by left | right].
    apply in_AdStatus. by left.
Qed.

Lemma updateAd_non_owner_witness :
  updateAd host_later "id-A" "owner-P" close_bike store_A
  = (Err msg_Unauthorized_update, store_A)
  ∧ (updateAd host_later "id-A" "owner-P" close_bike store_A).2 !! "id-A"
    = Some ad_A.
Proof.
  apply (updateAd_non_owner host_later "id-A" "owner-P" close_bike
           store_A ad_A); simpl;
    [reflexivity | discriminate | discriminate | discriminate
    | discriminate | discriminate | right].
  apply list_elem_of_In. simpl. right. left. reflexivity.
Defined.

(** C6. When bidOnAd succeeds, the id it was called with holds an Ad, and
    the Ad returned is that Ad with the bid of the given bidder and amount
    put at the end of its bids and every other field, status and
    updatedAt among them, as stored; the store after the call is the
    store before with the returned Ad put under its id. *)
Theorem bidOnAd_success (id_ bidder_ : string) (amount_ : JS.number)
    (st st' : Storage) (ad' : Ad) :
  bidOnAd id_ bidder_ amount_ st = (Ok ad', st') →
  ∃ ad,
    st !! id_ = Some ad
    ∧ bids ad' = bids ad ++ [{| bidder := bidder_; amount := amount_ |}]
    ∧ id ad' = id ad
    ∧ owner ad' = owner ad
    ∧ itemType ad' = itemType ad
    ∧ itemDescription ad' = itemDescription ad
    ∧ status ad' = status ad
    ∧ createdAt ad' = createdAt ad
    ∧ updatedAt ad' = updatedAt ad
    ∧ st' = <[id ad := ad']> st
    ∧ st' !! id ad' = Some ad'.
Proof.
  revert st' ad'. run_call. split_call; intros st' ad' [= <- <-].
  exists a. simpl. repeat split; try done.
  by rewrite lookup_insert_eq.
Qed.

Lemma bidOnAd_success_witness :
  ∃ ad,
    store_A !! "id-A" = Some ad
    ∧ bids ad_A_bid = bids ad ++ [{| bidder := "buyer1"; amount := amount_100 |}]
    ∧ id ad_A_bid = id ad
    ∧ owner ad_A_bid = owner ad
    ∧ itemType ad_A_bid = itemType ad
    ∧ itemDescription ad_A_bid = itemDescription ad
    ∧ status ad_A_bid = status ad
    ∧ createdAt ad_A_bid = createdAt ad
    ∧ updatedAt ad_A_bid = updatedAt ad
    ∧ store_A_bid = <[id ad := ad_A_bid]> store_A
    ∧ store_A_bid !! id ad_A_bid = Some ad_A_bid.
Proof.
  apply (bidOnAd_success "id-A" "buyer1" amount_100 store_A).
  vm_compute. reflexivity.
Defined.

(** C7. getAllAds on the empty store succeeds with the empty sequence,
    whereas getAdsByOwner on a store in which no Ad has the supplied
    owner, the empty store included, fails with the no-ads failure. *)
Theorem empty_listing_asymmetry :
  getAllAds ∅ = (Ok [], ∅)
  ∧ (∀ owner_, getAdsByOwner owner_ ∅ = (Err (msg_NoAdsForOwner owner_), ∅))
  ∧ (∀ owner_ (st : Storage),
       (∀ k ad, st !! k = Some ad → owner ad ≠ owner_) →
       getAdsByOwner owner_ st = (Err (msg_NoAdsForOwner owner_), st)).
Proof.
  assert (∀ owner_ (st : Storage),
       (∀ k ad, st !! k = Some ad → owner ad ≠ owner_) →
       getAdsByOwner owner_ st = (Err (msg_NoAdsForOwner owner_), st))
    as Hnone.
  { intros owner_ st Hno. run_call.
    assert (List.filter (λ ad, JS.strict_eq (owner ad) owner_)
              (map_to_list st).*2 = []) as ->; [| done].
    apply elem_of_nil_inv. intros ad Hin.
    apply list_elem_of_In, filter_In in Hin as [Hin Heq].
    apply list_elem_of_In, list_elem_of_fmap in Hin as ([k a] & -> & Hin).
    apply elem_of_map_to_list in Hin. apply strict_eq_true in Heq.
    by apply (Hno k a). }
  split; [| split].
  - run_call. by rewrite map_to_list_empty.
  - intros owner_. apply Hnone. intros k ad Hk. by rewrite lookup_empty in Hk.
  - exact Hnone.
Qed.

Lemma empty_listing_asymmetry_witness :
  getAdsByOwner "owner-P" store_A = (Err (msg_NoAdsForOwner "owner-P"), store_A).
Proof.
  apply (proj2 (proj2 empty_listing_asymmetry) "owner-P" store_A).
  intros k ad Hk.
  destruct (decide (k = "id-A")) as [-> | Hne].
  - vm_compute in Hk. injection Hk as <-. discriminate.
  - unfold store_A in Hk. rewrite createAd_valid in Hk by discriminate.
    simpl in Hk. rewrite lookup_insert_ne, lookup_empty in Hk by done.
    discriminate.
Defined.

(** C8. For every Ad in a reachable store, deleteAd called with the Ad's
    id and the Ad's owner succeeds and returns the Ad as stored; the store
    after the call is the store before without that id, and getAdByID on
    the id then fails with the not-found failure. *)
Theorem deleteAd_by_owner (st : Storage) (k : string) (ad : Ad) :
  reachable st →
  st !! k = Some ad →
  id ad = k
  ∧ deleteAd (id ad) (owner ad) st = (Ok ad, delete (id ad) st)
  ∧ delete (id ad) st !! id ad = None
  ∧ getAdByID (id ad) (delete (id ad) st)
    = (Err (msg_NotFound_get (id ad)), delete (id ad) st).
Proof.
  intros Hreach Hk.
  destruct (reachable_well_keyed st Hreach k ad Hk) as (Hid & Hne & Hown).
  rewrite Hid. split; [done |]. split; [| split].
  - rewrite deleteAd_validated by done. rewrite Hk. by decide_tests.
  - apply lookup_delete_eq.
  - by rewrite getAdByID_lookup, lookup_delete_eq.
Qed.

Lemma deleteAd_by_owner_witness :
  id ad_A_bid = "id-A"
  ∧ deleteAd (id ad_A_bid) (owner ad_A_bid) store_A_bid
    = (Ok ad_A_bid, delete (id ad_A_bid) store_A_bid)
  ∧ delete (id ad_A_bid) store_A_bid !! id ad_A_bid = None
  ∧ getAdByID (id ad_A_bid) (delete (id ad_A_bid) store_A_bid)
    = (Err (msg_NotFound_get (id ad_A_bid)), delete (id ad_A_bid) store_A_bid).
Proof.
  apply (deleteAd_by_owner store_A_bid "id-A" ad_A_bid).
  - apply reachable_store_A_bid.
  - vm_compute. reflexivity.
Defined.

(** C4, as stated, fails: in a reachable store whose open Ad already has
    a bid by buyer1, who is not its owner, the first of two further calls
    of bidOnAd by buyer1 with a valid amount fails as a duplicate; and
    for the empty bidder, which is not the owner either, the first call
    fails on its parameters. *)
Lemma bidOnAd_first_call_fails :
  reachable store_A_bid
  ∧ store_A_bid !! "id-A" = Some ad_A_bid
  ∧ status ad_A_bid = AdStatus_OPEN
  ∧ "buyer1" ≠ owner ad_A_bid
  ∧ "" ≠ owner ad_A_bid
  ∧ JS.isNaN amount_150 = false
  ∧ bidOnAd "id-A" "buyer1" amount_150 store_A_bid
    = (Err (msg_DuplicateBid "buyer1"), store_A_bid)
  ∧ bidOnAd "id-A" "" amount_150 store_A_bid
    = (Err msg_InvalidParameters_bid, store_A_bid).
Proof.
  split; [apply reachable_store_A_bid |].
  split; [reflexivity |]. split; [reflexivity |].
  split; [discriminate |]. split; [discriminate |].
  split; [reflexivity |]. split; reflexivity.
Qed.

(** C4, amended. For every open Ad in a reachable store and every
    non-empty bidder that is not its owner and has no bid on it yet, two
    calls of bidOnAd on the Ad's id by that bidder with amounts that are
    numbers go as follows: the first succeeds, returns the Ad with exactly
    the one new bid at the end of its bids and stores it; the second fails
    as a duplicate and leaves the store, and so the Ad's bids and their
    number, as the first call left them. *)
Theorem bidOnAd_twice (st : Storage) (k : string) (ad : Ad)
    (bidder_ : string) (amount1 amount2 : JS.number) :
  reachable st →
  st !! k = Some ad →
  status ad = AdStatus_OPEN →
  bidder_ ≠ "" →
  bidder_ ≠ owner ad →
  bidder_ ∉ bidders ad →
  JS.isNaN amount1 = false →
  JS.isNaN amount2 = false →
  let ad1 := push_bid ad {| bidder := bidder_; amount := amount1 |} in
  let st1 := <[k := ad1]> st in
  bidOnAd k bidder_ amount1 st = (Ok ad1, st1)
  ∧ bids ad1 = bids ad ++ [{| bidder := bidder_; amount := amount1 |}]
  ∧ length (bids ad1) = S (length (bids ad))
  ∧ st1 !! k = Some ad1
  ∧ bidOnAd k bidder_ amount2 st1 = (Err (msg_DuplicateBid bidder_), st1)
  ∧ (bidOnAd k bidder_ amount2 st1).2 !! k = Some ad1.
Proof.
  intros Hreach Hk Hopen Hb Hne Hnew Ha1 Ha2 ad1 st1.
  destruct (reachable_well_keyed st Hreach k ad Hk) as (Hid & Hnek & _).
  assert (owner ad ≠ bidder_) as Hne' by congruence.
  assert (bidOnAd k bidder_ amount2 st1
          = (Err (msg_DuplicateBid bidder_), st1)) as Hsecond.
  { rewrite bidOnAd_validated by done. subst st1.
    rewrite lookup_insert_eq. subst ad1. simpl. rewrite Hopen. decide_tests.
    assert (JS.found
              (JS.find (λ bid, JS.strict_eq (bidder bid) bidder_)
                 (bids ad ++ [{| bidder := bidder_; amount := amount1 |}]))
            = true) as ->; [| done].
    apply find_bidder. rewrite fmap_app, elem_of_app. right. simpl. left. }
  split; [| split; [| split; [| split; [| split]]]].
  - rewrite bidOnAd_validated by done. rewrite Hk, Hopen. decide_tests.
    apply find_bidder_none in Hnew. unfold bidders in Hnew. rewrite Hnew.
    simpl. by rewrite Hid.
  - done.
  - subst ad1. simpl. rewrite length_app. simpl. lia.
  - apply lookup_insert_eq.
  - exact Hsecond.
  - rewrite Hsecond. apply lookup_insert_eq.
Qed.

Lemma bidOnAd_twice_witness :
  let ad1 := push_bid ad_A {| bidder := "buyer1"; amount := amount_100 |} in
  let st1 := <["id-A" := ad1]> store_A in
  bidOnAd "id-A" "buyer1" amount_100 store_A = (Ok ad1, st1)
  ∧ bids ad1 = bids ad_A ++ [{| bidder := "buyer1"; amount := amount_100 |}]
  ∧ length (bids ad1) = S (length (bids ad_A))
  ∧ st1 !! "id-A" = Some ad1
  ∧ bidOnAd "id-A" "buyer1" amount_150 st1
    = (Err (msg_DuplicateBid "buyer1"), st1)
  ∧ (bidOnAd "id-A" "buyer1" amount_150 st1).2 !! "id-A" = Some ad1.
Proof.
  apply (bidOnAd_twice store_A "id-A" ad_A "buyer1" amount_100 amount_150).
  - apply reachable_store_A.
  - reflexivity.
  - reflexivity.
  - discriminate.
  - discriminate.
  - apply not_elem_of_nil.
  - reflexivity.
  - reflexivity.
Defined.

(** * Further properties of the methods *)

(** ** Every way a call can end *)

Lemma createAd_cases h payload st :
  ((CreateAdPayload.itemType payload = ""
    ∨ CreateAdPayload.itemDescription payload = "")
   ∧ createAd h payload st = (Err msg_InvalidPayload_create, st))
  ∨ (CreateAdPayload.itemType payload ≠ ""
     ∧ CreateAdPayload.itemDescription payload ≠ ""
     ∧ createAd h payload st
       = (Ok (newAd h payload), <[uuidv4 h 0 := newAd h payload]> st)).
Proof.
  destruct (decide (CreateAdPayload.itemType payload = "")) as [Ht | Ht];
    [left; split; [by left | apply createAd_invalid; by left] |].
  destruct (decide (CreateAdPayload.itemDescription payload = ""))
    as [Hd | Hd];
    [left; split; [by right | apply createAd_invalid; by right] |].
  right. split; [done | split; [done |]]. by rewrite createAd_valid.
Qed.

Lemma updateAd_cases h id_ owner_ payload st :
  (∃ message, updateAd h id_ owner_ payload st = (Err message, st))
  ∨ (∃ ad,
       st !! id_ = Some ad ∧ owner ad = owner_
       ∧ id_ ≠ "" ∧ owner_ ≠ ""
       ∧ UpdateAdPayload.itemType payload ≠ ""
       ∧ UpdateAdPayload.itemDescription payload ≠ ""
       ∧ (UpdateAdPayload.status payload = ""
          ∨ JS.in_ (UpdateAdPayload.status payload) AdStatus = true)
       ∧ updateAd h id_ owner_ payload st
         = (Ok (updatedAd h payload ad),
            <[id ad := updatedAd h payload ad]> st)).
Proof.
  run_call. split_call; try (left; eexists; reflexivity).
  bool_facts. right. exists a. repeat split; try done.
  match goal with
  | H : _ ∨ _ |- _ => destruct H as [H | H]; [left | right]; by bool_facts
  end.
Qed.

Lemma deleteAd_cases id_ owner_ st :
  (∃ message, deleteAd id_ owner_ st = (Err message, st))
  ∨ (∃ ad,
       st !! id_ = Some ad ∧ owner ad = owner_ ∧ id_ ≠ "" ∧ owner_ ≠ ""
       ∧ deleteAd id_ owner_ st = (Ok ad, delete id_ st)).
Proof.
  run_call. split_call; try (left; eexists; reflexivity).
  bool_facts. right. exists a. by repeat split.
Qed.

Lemma bidOnAd_cases id_ bidder_ amount_ st :
  (∃ message, bidOnAd id_ bidder_ amount_ st = (Err message, st))
  ∨ (∃ ad,
       st !! id_ = Some ad
       ∧ id_ ≠ "" ∧ bidder_ ≠ "" ∧ JS.isNaN amount_ = false
       ∧ status ad = AdStatus_OPEN
       ∧ owner ad ≠ bidder_
       ∧ (bidder_ ∉ bidders ad)
       ∧ bidOnAd id_ bidder_ amount_ st
         = (Ok (push_bid ad {| bidder := bidder_; amount := amount_ |}),
            <[id ad := push_bid ad {| bidder := bidder_; amount := amount_ |}]>
              st)).
Proof.
  run_call. split_call; try (left; eexists; reflexivity).
  bool_facts. right. exists a. by repeat split.
Qed.

(** ** Failures *)

(** X1. createAd fails exactly when the payload's itemType or
    itemDescription is empty; it then answers with the invalid-payload
    message and leaves the store as it was. *)
Theorem createAd_fails_iff (h : Host) (payload : CreateAdPayload.t)
    (st : Storage) :
  (CreateAdPayload.itemType payload = ""
   ∨ CreateAdPayload.itemDescription payload = "")
  ↔ createAd h payload st = (Err "Invalid payload for creating ad", st).
Proof.
  split.
  - apply createAd_invalid.
  - intros Hfail.
    destruct (createAd_cases h payload st) as [[H _] | (_ & _ & Hok)];
      [done | congruence].
Qed.

(** X2. A call of createAd, updateAd, deleteAd or bidOnAd that answers
    with a failure leaves the store exactly as it was. *)
Theorem failed_call_keeps_store (st : Storage) (message : string) :
  (∀ h payload,
     (createAd h payload st).1 = Err message →
     (createAd h payload st).2 = st)
  ∧ (∀ h id_ owner_ payload,
       (updateAd h id_ owner_ payload st).1 = Err message →
       (updateAd h id_ owner_ payload st).2 = st)
  ∧ (∀ id_ owner_,
       (deleteAd id_ owner_ st).1 = Err message →
       (deleteAd id_ owner_ st).2 = st)
  ∧ (∀ id_ bidder_ amount_,
       (bidOnAd id_ bidder_ amount_ st).1 = Err message →
       (bidOnAd id_ bidder_ amount_ st).2 = st).
Proof.
  split; [| split; [| split]].
  - intros h payload.
    destruct (createAd_cases h payload st) as [[_ ->] | (_ & _ & ->)];
      [done | discriminate].
  - intros h id_ owner_ payload.
    destruct (updateAd_cases h id_ owner_ payload st)
      as [[m ->] | (ad & _ & _ & _ & _ & _ & _ & _ & ->)];
      [done | discriminate].
  - intros id_ owner_.
    destruct (deleteAd_cases id_ owner_ st)
      as [[m ->] | (ad & _ & _ & _ & _ & ->)]; [done | discriminate].
  - intros id_ bidder_ amount_.
    destruct (bidOnAd_cases id_ bidder_ amount_ st)
      as [[m ->] | (ad & _ & _ & _ & _ & _ & _ & _ & ->)];
      [done | discriminate].
Qed.

Lemma failed_call_keeps_store_witness :
  (bidOnAd "id-A" "owner-O" amount_100 store_A).2 = store_A.
Proof.
  apply (proj2 (proj2 (proj2
           (failed_call_keeps_store store_A msg_SelfBid)))).
  reflexivity.
Defined.

(** X3. updateAd makes its checks in a fixed order, none of which looks
    at the store: an empty id or owner gives the invalid-parameters
    failure; otherwise an empty itemType or itemDescription gives the
    invalid-payload failure; otherwise a non-empty status that is not a
    property name of the enum object gives the invalid-status failure;
    and only then an id without an Ad gives the not-found failure.  The
    store is as it was in each case. *)
Theorem updateAd_rejections (h : Host) (id_ owner_ : string)
    (payload : UpdateAdPayload.t) (st : Storage) :
  (id_ = "" ∨ owner_ = "" →
   updateAd h id_ owner_ payload st
   = (Err "Invalid parameters for updating ad", st))
  ∧ (id_ ≠ "" → owner_ ≠ "" →
     UpdateAdPayload.itemType payload = ""
     ∨ UpdateAdPayload.itemDescription payload = "" →
     updateAd h id_ owner_ payload st
     = (Err "Invalid payload for updating ad", st))
  ∧ (id_ ≠ "" → owner_ ≠ "" →
     UpdateAdPayload.itemType payload ≠ "" →
     UpdateAdPayload.itemDescription payload ≠ "" →
     UpdateAdPayload.status payload ≠ "" →
     JS.in_ (UpdateAdPayload.status payload) AdStatus = false →
     updateAd h id_ owner_ payload st
     = (Err "Invalid status! Allowed statuses are OPEN, CLOSED, BOUGHT", st))
  ∧ (id_ ≠ "" → owner_ ≠ "" →
     UpdateAdPayload.itemType payload ≠ "" →
     UpdateAdPayload.itemDescription payload ≠ "" →
     UpdateAdPayload.status payload = ""
     ∨ JS.in_ (UpdateAdPayload.status payload) AdStatus = true →
     st !! id_ = None →
     updateAd h id_ owner_ payload st
     = (Err ("Ad with id of " ++ id_ ++ " has not been found"), st)).
Proof.
  destruct (updateAd_rejected h id_ owner_ payload st) as (H1 & H2 & H3).
  split; [exact H1 | split; [exact H2 | split; [exact H3 |]]].
  intros Hi Ho Ht Hd Hs Hnone.
  rewrite updateAd_validated by done. by rewrite Hnone.
Qed.

Lemma updateAd_rejections_witness :
  updateAd host_later "id-A" "owner-O"
    (UpdateAdPayload.mk "bike" "red bike" "SOLD") store_A
  = (Err "Invalid status! Allowed statuses are OPEN, CLOSED, BOUGHT", store_A)
  ∧ updateAd host_later "id-B" "owner-O" close_bike store_A
    = (Err "Ad with id of id-B has not been found", store_A).
Proof.
  destruct (updateAd_rejections host_later "id-A" "owner-O"
              (UpdateAdPayload.mk "bike" "red bike" "SOLD") store_A)
    as (_ & _ & Hstatus & _).
  destruct (updateAd_rejections host_later "id-B" "owner-O" close_bike
              store_A) as (_ & _ & _ & Hmissing).
  split.
  - apply Hstatus; simpl; try discriminate. reflexivity.
  - apply Hmissing; simpl; try discriminate; [right |]; reflexivity.
Defined.

(** X4. deleteAd checks in this order: an empty id or owner gives the
    invalid-parameters failure; an id without an Ad gives the not-found
    failure; an owner other than the Ad's gives the owner-only failure.
    In each case the store, and so the Ad, is as it was. *)
Theorem deleteAd_rejections (id_ owner_ : string) (st : Storage) :
  (id_ = "" ∨ owner_ = "" →
   deleteAd id_ owner_ st = (Err "Invalid parameters for deleting ad", st))
  ∧ (id_ ≠ "" → owner_ ≠ "" → st !! id_ = None →
     deleteAd id_ owner_ st
     = (Err ("Ad with id of " ++ id_ ++ " has not been found"), st))
  ∧ (∀ ad, id_ ≠ "" → owner_ ≠ "" → st !! id_ = Some ad →
     owner ad ≠ owner_ →
     deleteAd id_ owner_ st = (Err "Only the owner can delete the ad!", st)).
Proof.
  split; [| split].
  - intros [-> | ->]; run_call; [done |]. by destruct id_.
  - intros Hi Ho Hnone. rewrite deleteAd_validated by done. by rewrite Hnone.
  - intros ad Hi Ho Hk Hne. rewrite deleteAd_validated by done.
    rewrite Hk. by decide_tests.
Qed.

Lemma deleteAd_rejections_witness :
  deleteAd "id-A" "owner-P" store_A_bid
  = (Err "Only the owner can delete the ad!", store_A_bid).
Proof.
  apply (proj2 (proj2 (deleteAd_rejections "id-A" "owner-P" store_A_bid))
           ad_A_bid); try discriminate.
  reflexivity.
Defined.

(** X5. bidOnAd checks in this order: an empty id, an empty bidder or an
    amount that is not a number gives the invalid-parameters failure; an
    id without an Ad the not-found failure; an Ad whose status is not OPEN
    the not-open failure, whoever bids; the Ad's owner as bidder the
    own-ad failure; a bidder that already has a bid the duplicate
    failure.  The store is as it was in each case. *)
Theorem bidOnAd_rejections (id_ bidder_ : string) (amount_ : JS.number)
    (st : Storage) :
  (id_ = "" ∨ bidder_ = "" ∨ JS.isNaN amount_ = true →
   bidOnAd id_ bidder_ amount_ st
   = (Err "Invalid parameters for bidding on ad", st))
  ∧ (id_ ≠ "" → bidder_ ≠ "" → JS.isNaN amount_ = false →
     (st !! id_ = None →
      bidOnAd id_ bidder_ amount_ st
      = (Err ("Ad with id of " ++ id_ ++ " has not been found"), st))
     ∧ (∀ ad, st !! id_ = Some ad →
        (status ad ≠ "OPEN" →
         bidOnAd id_ bidder_ amount_ st = (Err "Ad is no longer open", st))
        ∧ (status ad = "OPEN" → owner ad = bidder_ →
           bidOnAd id_ bidder_ amount_ st
           = (Err "You can't bid on your own ad!", st))
        ∧ (status ad = "OPEN" → owner ad ≠ bidder_ → bidder_ ∈ bidders ad →
           bidOnAd id_ bidder_ amount_ st
           = (Err (bidder_ ++ " has already bid on this ad!"), st)))).
Proof.
  split.
  - intros [-> | [-> | Hnan]]; run_call; [done | by destruct id_ |].
    rewrite Hnan. by rewrite orb_true_r.
  - intros Hi Hb Ha. rewrite bidOnAd_validated by done. split.
    + by intros ->.
    + intros ad ->. split; [| split].
      * intros Hst. change "OPEN" with AdStatus_OPEN in Hst.
        by decide_tests.
      * intros Hst <-. unfold AdStatus_OPEN. rewrite Hst. by decide_tests.
      * intros Hst Hne Hin. unfold AdStatus_OPEN. rewrite Hst. decide_tests.
        apply find_bidder in Hin. unfold bidders in Hin. by rewrite Hin.
Qed.

Lemma bidOnAd_rejections_witness :
  bidOnAd "id-A" "buyer2" amount_150 store_A_closed
  = (Err "Ad is no longer open", store_A_closed)
  ∧ bidOnAd "id-A" "owner-O" amount_150 store_A
    = (Err "You can't bid on your own ad!", store_A)
  ∧ bidOnAd "id-A" "buyer2" S754_nan store_A
    = (Err "Invalid parameters for bidding on ad", store_A).
Proof.
  split; [| split].
  - refine (proj1 (proj2 (proj2
              (bidOnAd_rejections "id-A" "buyer2" amount_150 store_A_closed)
              _ _ _) ad_A_closed _) _);
      [discriminate | discriminate | reflexivity | reflexivity
      | discriminate].
  - refine (proj1 (proj2 (proj2 (proj2
              (bidOnAd_rejections "id-A" "owner-O" amount_150 store_A)
              _ _ _) ad_A _)) _ _);
      [discriminate | discriminate | reflexivity | reflexivity
      | reflexivity | reflexivity].
  - apply (proj1 (bidOnAd_rejections "id-A" "buyer2" S754_nan store_A)).
    right. right. reflexivity.
Defined.

(** ** Listings *)

(** X6. getAllAds always succeeds and changes nothing; the sequence it
    returns has one entry for each key of the store, and an Ad is in it
    exactly when the store holds it. *)
Theorem getAllAds_lists_store (st : Storage) :
  ∃ ads,
    getAllAds st = (Ok ads, st)
    ∧ length ads = size st
    ∧ ∀ ad, ad ∈ ads ↔ ∃ k, st !! k = Some ad.
Proof.
  exists ((map_to_list st).*2). split; [reflexivity | split].
  - by rewrite length_fmap, length_map_to_list.
  - intros ad. rewrite list_elem_of_fmap. split.
    + intros ([k a] & -> & Hin). exists k.
      by apply elem_of_map_to_list in Hin.
    + intros [k Hk]. exists (k, ad). split; [done |].
      by apply elem_of_map_to_list.
Qed.

(** X7. When the store holds an Ad of the supplied owner, getAdsByOwner
    succeeds and changes nothing, and an Ad is in the returned sequence
    exactly when the store holds it and its owner is the supplied one. *)
Theorem getAdsByOwner_lists_owner (owner_ : string) (st : Storage)
    (k0 : string) (ad0 : Ad) :
  st !! k0 = Some ad0 →
  owner ad0 = owner_ →
  ∃ ads,
    getAdsByOwner owner_ st = (Ok ads, st)
    ∧ ad0 ∈ ads
    ∧ ∀ ad, ad ∈ ads ↔ owner ad = owner_ ∧ ∃ k, st !! k = Some ad.
Proof.
  intros Hk0 Hown.
  set (ads := List.filter (λ ad, JS.strict_eq (owner ad) owner_)
                (map_to_list st).*2).
  assert (∀ ad, ad ∈ ads ↔ owner ad = owner_ ∧ ∃ k, st !! k = Some ad)
    as Hin.
  { intros ad. subst ads.
    rewrite list_elem_of_In, filter_In, <- list_elem_of_In.
    rewrite list_elem_of_fmap, strict_eq_true. split.
    - intros [([k a] & -> & Hin) Heq]. split; [done |]. exists k.
      by apply elem_of_map_to_list in Hin.
    - intros [Heq [k Hk]]. split; [| done]. exists (k, ad).
      split; [done |]. by apply elem_of_map_to_list. }
  assert (ad0 ∈ ads) as Hin0 by (apply Hin; eauto).
  exists ads. split; [| done].
  run_call. fold ads. destruct ads as [| a rest]; [| done].
  by apply elem_of_nil in Hin0.
Qed.

Lemma getAdsByOwner_lists_owner_witness :
  ∃ ads,
    getAdsByOwner "owner-O" store_A_bid = (Ok ads, store_A_bid)
    ∧ ad_A_bid ∈ ads
    ∧ ∀ ad, ad ∈ ads
        ↔ owner ad = "owner-O" ∧ ∃ k, store_A_bid !! k = Some ad.
Proof.
  apply (getAdsByOwner_lists_owner "owner-O" store_A_bid "id-A" ad_A_bid);
    reflexivity.
Defined.

(** ** Reading back what was written *)

(** X8. In a reachable store, the Ad a successful updateAd or bidOnAd
    returns is the Ad getAdByID returns for the same id right after the
    call. *)
Theorem written_ad_is_read_back (st : Storage) :
  reachable st →
  (∀ h id_ owner_ payload ad' st',
     updateAd h id_ owner_ payload st = (Ok ad', st') →
     getAdByID id_ st' = (Ok ad', st'))
  ∧ (∀ id_ bidder_ amount_ ad' st',
       bidOnAd id_ bidder_ amount_ st = (Ok ad', st') →
       getAdByID id_ st' = (Ok ad', st')).
Proof.
  intros Hreach. pose proof (reachable_well_keyed st Hreach) as Hkey. split.
  - intros h id_ owner_ payload ad' st' Hcall.
    destruct (updateAd_cases h id_ owner_ payload st)
      as [[m Hm] | (ad & Hk & _ & _ & _ & _ & _ & _ & Hok)];
      [congruence |].
    rewrite Hok in Hcall. injection Hcall as <- <-.
    destruct (Hkey _ _ Hk) as (-> & _).
    by rewrite getAdByID_lookup, lookup_insert_eq.
  - intros id_ bidder_ amount_ ad' st' Hcall.
    destruct (bidOnAd_cases id_ bidder_ amount_ st)
      as [[m Hm] | (ad & Hk & _ & _ & _ & _ & _ & _ & Hok)];
      [congruence |].
    rewrite Hok in Hcall. injection Hcall as <- <-.
    destruct (Hkey _ _ Hk) as (-> & _).
    by rewrite getAdByID_lookup, lookup_insert_eq.
Qed.

Lemma written_ad_is_read_back_witness :
  getAdByID "id-A" store_A_bid = (Ok ad_A_bid, store_A_bid).
Proof.
  apply (proj2 (written_ad_is_read_back store_A reachable_store_A)
           "id-A" "buyer1" amount_100).
  reflexivity.
Defined.

(** ** What a call leaves alone *)

(** X9. In a reachable store, updateAd, deleteAd and bidOnAd on one id
    leave the entry of every other id as it was; createAd leaves the entry
    of every id other than the generated one as it was, in any store. *)
Theorem calls_touch_one_entry (st : Storage) (k : string) :
  reachable st →
  (∀ h payload, k ≠ uuidv4 h 0 → (createAd h payload st).2 !! k = st !! k)
  ∧ (∀ h id_ owner_ payload,
       k ≠ id_ → (updateAd h id_ owner_ payload st).2 !! k = st !! k)
  ∧ (∀ id_ owner_, k ≠ id_ → (deleteAd id_ owner_ st).2 !! k = st !! k)
  ∧ (∀ id_ bidder_ amount_,
       k ≠ id_ → (bidOnAd id_ bidder_ amount_ st).2 !! k = st !! k).
Proof.
  intros Hreach. pose proof (reachable_well_keyed st Hreach) as Hkey.
  split; [| split; [| split]].
  - intros h payload Hne.
    destruct (createAd_cases h payload st) as [[_ ->] | (_ & _ & ->)];
      [done |].
    simpl. by rewrite lookup_insert_ne.
  - intros h id_ owner_ payload Hne.
    destruct (updateAd_cases h id_ owner_ payload st)
      as [[m ->] | (ad & Hk & _ & _ & _ & _ & _ & _ & ->)]; [done |].
    destruct (Hkey _ _ Hk) as (Hid & _). simpl.
    rewrite lookup_insert_ne; congruence.
  - intros id_ owner_ Hne.
    destruct (deleteAd_cases id_ owner_ st)
      as [[m ->] | (ad & _ & _ & _ & _ & ->)]; [done |].
    simpl. by rewrite lookup_delete_ne.
  - intros id_ bidder_ amount_ Hne.
    destruct (bidOnAd_cases id_ bidder_ amount_ st)
      as [[m ->] | (ad & Hk & _ & _ & _ & _ & _ & _ & ->)]; [done |].
    destruct (Hkey _ _ Hk) as (Hid & _). simpl.
    rewrite lookup_insert_ne; congruence.
Qed.

Lemma calls_touch_one_entry_witness :
  (bidOnAd "id-B" "buyer1" amount_100 store_A).2 !! "id-A"
  = store_A !! "id-A".
Proof.
  apply (proj2 (proj2 (proj2
           (calls_touch_one_entry store_A "id-A" reachable_store_A)))).
  discriminate.
Defined.

(** X10. In a reachable store, updateAd and bidOnAd neither add nor
    remove an id; a successful deleteAd removes exactly its id; and a
    successful createAd with an id not in use adds exactly that id, so the
    store grows by one Ad. *)
Theorem calls_and_the_ids (st : Storage) :
  reachable st →
  (∀ h id_ owner_ payload,
     dom (updateAd h id_ owner_ payload st).2 = dom st)
  ∧ (∀ id_ bidder_ amount_, dom (bidOnAd id_ bidder_ amount_ st).2 = dom st)
  ∧ (∀ id_ owner_ ad st',
       deleteAd id_ owner_ st = (Ok ad, st') →
       dom st' = dom st ∖ {[id_]} ∧ size st = S (size st'))
  ∧ (∀ h payload ad st',
       createAd h payload st = (Ok ad, st') →
       st !! uuidv4 h 0 = None →
       dom st' = {[uuidv4 h 0]} ∪ dom st ∧ size st' = S (size st)).
Proof.
  intros Hreach. pose proof (reachable_well_keyed st Hreach) as Hkey.
  split; [| split; [| split]].
  - intros h id_ owner_ payload.
    destruct (updateAd_cases h id_ owner_ payload st)
      as [[m ->] | (ad & Hk & _ & _ & _ & _ & _ & _ & ->)]; [done |].
    destruct (Hkey _ _ Hk) as (Hid & _). simpl. rewrite Hid.
    apply dom_insert_lookup_L. by rewrite Hk.
  - intros id_ bidder_ amount_.
    destruct (bidOnAd_cases id_ bidder_ amount_ st)
      as [[m ->] | (ad & Hk & _ & _ & _ & _ & _ & _ & ->)]; [done |].
    destruct (Hkey _ _ Hk) as (Hid & _). simpl. rewrite Hid.
    apply dom_insert_lookup_L. by rewrite Hk.
  - intros id_ owner_ ad st' Hcall.
    destruct (deleteAd_cases id_ owner_ st)
      as [[m Hm] | (a & Hk & _ & _ & _ & Hok)]; [congruence |].
    rewrite Hok in Hcall. injection Hcall as <- <-. split.
    + apply dom_delete_L.
    + rewrite map_size_delete_Some by (by rewrite Hk).
      assert (size st ≠ 0) as Hpos.
      { intros Hz. apply map_size_empty_inv in Hz. subst st.
        by rewrite lookup_empty in Hk. }
      lia.
  - intros h payload ad st' Hcall Hfresh.
    destruct (createAd_cases h payload st) as [[_ Hm] | (_ & _ & Hok)];
      [congruence |].
    rewrite Hok in Hcall. injection Hcall as <- <-. split.
    + apply dom_insert_L.
    + by apply map_size_insert_None.
Qed.

Lemma calls_and_the_ids_witness :
  dom (bidOnAd "id-A" "buyer1" amount_100 store_A).2 = dom store_A.
Proof.
  apply (proj1 (proj2 (calls_and_the_ids store_A reachable_store_A))).
Defined.

(** ** What the checks keep out of the store *)

Lemma well_formed_newAd h payload :
  CreateAdPayload.itemType payload ≠ "" →
  CreateAdPayload.itemDescription payload ≠ "" →
  well_formed (newAd h payload).
Proof.
  intros Ht Hd. unfold well_formed. simpl.
  split; [done | split; [done | split; [done | split; [done |]]]].
  intros bid Hin. by apply elem_of_nil in Hin.
Qed.

Lemma well_formed_updatedAd h payload ad :
  UpdateAdPayload.itemType payload ≠ "" →
  UpdateAdPayload.itemDescription payload ≠ "" →
  (UpdateAdPayload.status payload = ""
   ∨ JS.in_ (UpdateAdPayload.status payload) AdStatus = true) →
  well_formed ad → well_formed (updatedAd h payload ad).
Proof.
  intros Ht Hd Hs (_ & _ & Hne & Hin & Hbids). unfold well_formed. simpl.
  rewrite (or_truthy _ _ Ht), (or_truthy _ _ Hd).
  split; [done | split; [done |]].
  destruct (decide (UpdateAdPayload.status payload = "")) as [-> | Hs'].
  - by rewrite or_empty.
  - rewrite (or_truthy _ _ Hs'). destruct Hs as [? | Hs]; done.
Qed.

Lemma well_formed_push_bid ad bidder_ amount_ :
  bidder_ ≠ "" → JS.isNaN amount_ = false →
  well_formed ad →
  well_formed (push_bid ad {| bidder := bidder_; amount := amount_ |}).
Proof.
  intros Hb Ha (Ht & Hd & Hne & Hin & Hbids). unfold well_formed. simpl.
  split; [done | split; [done | split; [done | split; [done |]]]].
  intros bid [Hold | ->%list_elem_of_singleton]%elem_of_app;
    [by apply Hbids | done].
Qed.

Lemma step_well_formed st st' :
  step st st' →
  (∀ k ad, st !! k = Some ad → well_formed ad) →
  (∀ k ad, st' !! k = Some ad → well_formed ad).
Proof.
  intros Hstep Hwf k ad'. destruct Hstep as
    [h payload st _ | h id_ owner_ payload st | id_ owner_ st
    | id_ bidder_ amount_ st | st | id_ st | owner_ st].
  - destruct (createAd_cases h payload st) as [[_ ->] | (Ht & Hd & ->)];
      simpl; [apply Hwf |].
    rewrite lookup_insert. case_decide; [| apply Hwf].
    intros [= <-]. by apply well_formed_newAd.
  - destruct (updateAd_cases h id_ owner_ payload st)
      as [[m ->] | (ad & Hk & _ & _ & _ & Ht & Hd & Hs & ->)];
      simpl; [apply Hwf |].
    rewrite lookup_insert. case_decide; [| apply Hwf].
    intros [= <-]. apply well_formed_updatedAd; eauto.
  - destruct (deleteAd_cases id_ owner_ st)
      as [[m ->] | (ad & _ & _ & _ & _ & ->)]; simpl; [apply Hwf |].
    intros [_ Hk]%lookup_delete_Some. by apply (Hwf k).
  - destruct (bidOnAd_cases id_ bidder_ amount_ st)
      as [[m ->] | (ad & Hk & _ & Hb & Ha & _ & _ & _ & ->)];
      simpl; [apply Hwf |].
    rewrite lookup_insert. case_decide; [| apply Hwf].
    intros [= <-]. apply well_formed_push_bid; eauto.
  - apply Hwf.
  - rewrite (proj1 (proj2 (queries_effect st))). apply Hwf.
  - apply Hwf.
Qed.

Lemma reachable_well_formed st :
  reachable st → ∀ k ad, st !! k = Some ad → well_formed ad.
Proof.
  induction 1 as [| st st' _ IH Hstep].
  - intros k ad Hk. by rewrite lookup_empty in Hk.
  - by apply (step_well_formed st st').
Qed.

(** X11. In every reachable store, every Ad sits under its own id; its
    id, owner, itemType, itemDescription and status are non-empty; its
    status is a property name of the enum object; and each of its bids
    has a non-empty bidder and an amount that is a number. *)
Theorem reachable_ads_well_formed (st : Storage) (k : string) (ad : Ad) :
  reachable st →
  st !! k = Some ad →
  id ad = k
  ∧ id ad ≠ ""
  ∧ owner ad ≠ ""
  ∧ itemType ad ≠ ""
  ∧ itemDescription ad ≠ ""
  ∧ status ad ≠ ""
  ∧ JS.in_ (status ad) AdStatus = true
  ∧ ∀ bid, bid ∈ bids ad → bidder bid ≠ "" ∧ JS.isNaN (amount bid) = false.
Proof.
  intros Hreach Hk.
  destruct (reachable_well_keyed st Hreach k ad Hk) as (Hid & Hne & Hown).
  destruct (reachable_well_formed st Hreach k ad Hk)
    as (Ht & Hd & Hs & Hin & Hbids).
  rewrite Hid. by repeat split; try apply Hbids.
Qed.

Lemma reachable_ads_well_formed_witness :
  id ad_A_bid = "id-A"
  ∧ id ad_A_bid ≠ ""
  ∧ owner ad_A_bid ≠ ""
  ∧ itemType ad_A_bid ≠ ""
  ∧ itemDescription ad_A_bid ≠ ""
  ∧ status ad_A_bid ≠ ""
  ∧ JS.in_ (status ad_A_bid) AdStatus = true
  ∧ ∀ bid, bid ∈ bids ad_A_bid →
      bidder bid ≠ "" ∧ JS.isNaN (amount bid) = false.
Proof.
  apply (reachable_ads_well_formed store_A_bid "id-A" ad_A_bid).
  - apply reachable_store_A_bid.
  - reflexivity.
Defined.

(** X12. Across any call from a reachable store, an Ad that stays in the
    store keeps its id, its owner and its createdAt, and an updatedAt
    that was set stays set. *)
Theorem step_keeps_identity (st st' : Storage) (k : string) (ad ad' : Ad) :
  reachable st →
  step st st' →
  st !! k = Some ad →
  st' !! k = Some ad' →
  id ad' = id ad
  ∧ owner ad' = owner ad
  ∧ createdAt ad' = createdAt ad
  ∧ (updatedAt ad ≠ None → updatedAt ad' ≠ None).
Proof.
  intros Hreach Hstep Hk Hk'.
  pose proof (reachable_well_keyed st Hreach) as Hkey.
  assert (st' !! k = Some ad → id ad' = id ad ∧ owner ad' = owner ad
          ∧ createdAt ad' = createdAt ad
          ∧ (updatedAt ad ≠ None → updatedAt ad' ≠ None)) as Hsame.
  { intros Heq. rewrite Heq in Hk'. by injection Hk' as <-. }
  destruct Hstep as
    [h payload st Hc | h id_ owner_ payload st | id_ owner_ st
    | id_ bidder_ amount_ st | st | id_ st | owner_ st].
  - destruct Hc as (_ & _ & Hfresh).
    destruct (createAd_cases h payload st) as [[_ Hm] | (_ & _ & Hok)];
      rewrite ?Hm, ?Hok in *; simpl in *; [by apply Hsame |].
    rewrite lookup_insert in Hk'. case_decide; [congruence |].
    apply Hsame. by rewrite lookup_insert_ne.
  - destruct (updateAd_cases h id_ owner_ payload st)
      as [[m Hm] | (a & Ha & _ & _ & _ & _ & _ & _ & Hok)];
      rewrite ?Hm, ?Hok in *; simpl in *; [by apply Hsame |].
    destruct (Hkey _ _ Ha) as (Hid & _).
    rewrite lookup_insert in Hk'. case_decide.
    + assert (a = ad) as -> by congruence.
      injection Hk' as <-. by simpl.
    + apply Hsame. by rewrite lookup_insert_ne.
  - destruct (deleteAd_cases id_ owner_ st)
      as [[m Hm] | (a & _ & _ & _ & _ & Hok)];
      rewrite ?Hm, ?Hok in *; simpl in *; [by apply Hsame |].
    apply lookup_delete_Some in Hk' as [Hne Hk'].
    apply Hsame. by rewrite lookup_delete_ne.
  - destruct (bidOnAd_cases id_ bidder_ amount_ st)
      as [[m Hm] | (a & Ha & _ & _ & _ & _ & _ & _ & Hok)];
      rewrite ?Hm, ?Hok in *; simpl in *; [by apply Hsame |].
    destruct (Hkey _ _ Ha) as (Hid & _).
    rewrite lookup_insert in Hk'. case_decide.
    + assert (a = ad) as -> by congruence.
      injection Hk' as <-. by simpl.
    + apply Hsame. by rewrite lookup_insert_ne.
  - by apply Hsame.
  - rewrite (proj1 (proj2 (queries_effect st))) in *. by apply Hsame.
  - by apply Hsame.
Qed.

Lemma step_keeps_identity_witness :
  id ad_A_closed = id ad_A
  ∧ owner ad_A_closed = owner ad_A
  ∧ createdAt ad_A_closed = createdAt ad_A
  ∧ (updatedAt ad_A ≠ None → updatedAt ad_A_closed ≠ None).
Proof.
  apply (step_keeps_identity store_A store_A_closed "id-A" ad_A ad_A_closed).
  - apply reachable_store_A.
  - apply step_updateAd.
  - reflexivity.
  - reflexivity.
Defined.

(** ** Calls one after the other *)

(** X13. After a successful deleteAd the id holds no Ad, and every
    further call on that id whose arguments pass the checks, be it
    updateAd, deleteAd or bidOnAd, fails with the not-found failure and
    changes nothing. *)
Theorem deleted_ad_is_gone (id_ owner_ : string) (st st' : Storage)
    (ad : Ad) :
  deleteAd id_ owner_ st = (Ok ad, st') →
  st' !! id_ = None
  ∧ (∀ h owner' payload,
       owner' ≠ "" →
       UpdateAdPayload.itemType payload ≠ "" →
       UpdateAdPayload.itemDescription payload ≠ "" →
       UpdateAdPayload.status payload = ""
       ∨ JS.in_ (UpdateAdPayload.status payload) AdStatus = true →
       updateAd h id_ owner' payload st'
       = (Err ("Ad with id of " ++ id_ ++ " has not been found"), st'))
  ∧ (∀ owner',
       owner' ≠ "" →
       deleteAd id_ owner' st'
       = (Err ("Ad with id of " ++ id_ ++ " has not been found"), st'))
  ∧ (∀ bidder_ amount_,
       bidder_ ≠ "" → JS.isNaN amount_ = false →
       bidOnAd id_ bidder_ amount_ st'
       = (Err ("Ad with id of " ++ id_ ++ " has not been found"), st')).
Proof.
  intros Hcall.
  destruct (deleteAd_cases id_ owner_ st)
    as [[m Hm] | (a & Hk & _ & Hi & _ & Hok)]; [congruence |].
  rewrite Hok in Hcall. injection Hcall as <- <-.
  assert (delete id_ st !! id_ = None) as Hgone by apply lookup_delete_eq.
  split; [done | split; [| split]].
  - intros h owner' payload Ho Ht Hd Hs.
    rewrite updateAd_validated by done. by rewrite Hgone.
  - intros owner' Ho. rewrite deleteAd_validated by done. by rewrite Hgone.
  - intros bidder_ amount_ Hb Ha.
    rewrite bidOnAd_validated by done. by rewrite Hgone.
Qed.

Lemma deleted_ad_is_gone_witness :
  delete "id-A" store_A_bid !! "id-A" = None
  ∧ deleteAd "id-A" "owner-O" (delete "id-A" store_A_bid)
    = (Err "Ad with id of id-A has not been found",
       delete "id-A" store_A_bid).
Proof.
  destruct (deleted_ad_is_gone "id-A" "owner-O" store_A_bid
              (delete "id-A" store_A_bid) ad_A_bid)
    as (Hgone & _ & Hagain & _); [reflexivity |].
  split; [exact Hgone |]. apply Hagain. discriminate.
Defined.

(** X14. In a reachable store, once updateAd has succeeded with a
    non-empty status other than OPEN, every bid on that id whose
    arguments pass the check fails with the not-open failure and changes
    nothing. *)
Theorem closed_ad_takes_no_bids (h : Host) (id_ owner_ : string)
    (payload : UpdateAdPayload.t) (st st' : Storage) (ad' : Ad)
    (bidder_ : string) (amount_ : JS.number) :
  reachable st →
  updateAd h id_ owner_ payload st = (Ok ad', st') →
  UpdateAdPayload.status payload ≠ "" →
  UpdateAdPayload.status payload ≠ "OPEN" →
  bidder_ ≠ "" →
  JS.isNaN amount_ = false →
  bidOnAd id_ bidder_ amount_ st' = (Err "Ad is no longer open", st').
Proof.
  intros Hreach Hcall Hs Hclosed Hb Ha.
  destruct (updateAd_cases h id_ owner_ payload st)
    as [[m Hm] | (ad & Hk & _ & Hi & _ & _ & _ & _ & Hok)]; [congruence |].
  rewrite Hok in Hcall. injection Hcall as <- <-.
  destruct (reachable_well_keyed st Hreach _ _ Hk) as (-> & _).
  rewrite bidOnAd_validated by done. rewrite lookup_insert_eq. simpl.
  rewrite (or_truthy _ _ Hs).
  change "OPEN" with AdStatus_OPEN in Hclosed. by decide_tests.
Qed.

Lemma closed_ad_takes_no_bids_witness :
  bidOnAd "id-A" "buyer2" amount_150 store_A_closed
  = (Err "Ad is no longer open", store_A_closed).
Proof.
  apply (closed_ad_takes_no_bids host_later "id-A" "owner-O" close_bike
           store_A store_A_closed ad_A_closed "buyer2" amount_150).
  - apply reachable_store_A.
  - reflexivity.
  - discriminate.
  - discriminate.
  - discriminate.
  - reflexivity.
Defined.

(** X15. In a reachable store, once updateAd has succeeded with the
    status OPEN, whatever the Ad's status was before, a bid on that id by
    a non-empty bidder who is not the owner and has no bid on the Ad, with
    an amount that is a number, succeeds: it returns and stores the
    updated Ad with that bid put after the bids it had. *)
Theorem reopened_ad_takes_bids (h : Host) (id_ owner_ : string)
    (payload : UpdateAdPayload.t) (st st' : Storage) (ad' : Ad)
    (bidder_ : string) (amount_ : JS.number) :
  reachable st →
  updateAd h id_ owner_ payload st = (Ok ad', st') →
  UpdateAdPayload.status payload = "OPEN" →
  bidder_ ≠ "" →
  bidder_ ≠ owner_ →
  bidder_ ∉ bidders ad' →
  JS.isNaN amount_ = false →
  let bid := {| bidder := bidder_; amount := amount_ |} in
  bidOnAd id_ bidder_ amount_ st'
  = (Ok (push_bid ad' bid), <[id_ := push_bid ad' bid]> st').
Proof.
  intros Hreach Hcall Hs Hb Hne Hnew Ha bid.
  destruct (updateAd_cases h id_ owner_ payload st)
    as [[m Hm] | (ad & Hk & Hown & Hi & _ & _ & _ & _ & Hok)];
    [congruence |].
  rewrite Hok in Hcall. injection Hcall as <- <-.
  destruct (reachable_well_keyed st Hreach _ _ Hk) as (Hid & _).
  rewrite Hid. rewrite bidOnAd_validated by done.
  rewrite lookup_insert_eq. simpl. rewrite Hs. simpl.
  assert (owner ad ≠ bidder_) as Hne' by congruence. decide_tests.
  apply find_bidder_none in Hnew. unfold bidders in Hnew. simpl in Hnew.
  rewrite Hnew. by rewrite Hid.
Qed.

Lemma reopened_ad_takes_bids_witness :
  let bid := {| bidder := "buyer2"; amount := amount_150 |} in
  let ad' := updatedAd host_later reopen_bike ad_A_closed in
  let st' := (updateAd host_later "id-A" "owner-O" reopen_bike
                store_A_closed).2 in
  bidOnAd "id-A" "buyer2" amount_150 st'
  = (Ok (push_bid ad' bid), <["id-A" := push_bid ad' bid]> st').
Proof.
  apply (reopened_ad_takes_bids host_later "id-A" "owner-O" reopen_bike
           store_A_closed).
  - apply (reachable_step store_A); [apply reachable_store_A |].
    apply step_updateAd.
  - reflexivity.
  - reflexivity.
  - discriminate.
  - discriminate.
  - apply not_elem_of_nil.
  - reflexivity.
Defined.
